(** * Molecular similarity notebook (python/chemistry/chemistry.ipynb)

    A shallow embedding of the code cells of the notebook: the loading of
    [smiles.csv], the parsing loop that fills [molecules], the search
    function [most_similar], and the cells that report and render the match.

    The cheminformatics toolkit is not part of the repository.  It is an
    interface here ([Rdkit]): every call either returns a value or raises.
    Similarity scores are Python floats in the notebook; they are only ever
    compared, so they are rationals here (a float that is a number is
    ordered like the rational it denotes; a NaN score is not modelled). *)

From Stdlib Require Import Ascii String QArith Lqa.
From stdpp Require Import base list strings.

Local Open Scope string_scope.
Local Open Scope list_scope.

(** ** Python values used by the notebook *)

Definition LF : ascii := "010"%char.
Definition TAB : ascii := "009"%char.

(** [s.split(sep)] for a one-character separator: the result is never empty,
    and has one more element than [s] has separators. *)
Fixpoint split (sep : ascii) (s : string) : list string :=
  match s with
  | EmptyString => [EmptyString]
  | String c s' =>
      if Ascii.eqb c sep then EmptyString :: split sep s'
      else match split sep s' with
           | [] => [String c EmptyString]
           | w :: ws => String c w :: ws
           end
  end.

(** [c in s]. *)
Fixpoint has_char (c : ascii) (s : string) : bool :=
  match s with
  | EmptyString => false
  | String a s' => Ascii.eqb a c || has_char c s'
  end.

(** [sep.join(ws)]. *)
Fixpoint join (sep : ascii) (ws : list string) : string :=
  match ws with
  | [] => EmptyString
  | [w] => w
  | w :: ws' => w +:+ String sep (join sep ws')
  end.

(** Python's index normalisation: a negative index counts from the end. *)
Definition py_index {A} (i : Z) (l : list A) : option nat :=
  let n := Z.of_nat (length l) in
  let j := (if (i <? 0)%Z then i + n else i)%Z in
  if ((0 <=? j) && (j <? n))%Z then Some (Z.to_nat j) else None.

(** Each dictionary built by the parsing loop has exactly the keys
    ['name'] and ['smiles']. *)
Record mol_entry := { name : string; smiles : string }.

(** The comparison [a < b] on scores. *)
Definition Qltb (x y : Q) : bool := negb (Qle_bool y x).

(** ** The external toolkit *)

Class Rdkit := {
  Mol : Type;
  Fingerprint : Type;
  Image : Type;
  LibError : Type;
  MolFromSmiles : string -> LibError + Mol;
  RDKFingerprint : Mol -> LibError + Fingerprint;
  FingerprintSimilarity : Fingerprint -> Fingerprint -> LibError + Q;
  MolsToGridImage : Mol -> Mol -> LibError + Image
}.

Section Notebook.

Context {L : Rdkit}.

(** Exceptions: the three the interpreter raises on the notebook's own
    statements, and whatever the toolkit raises. *)
Inductive exn :=
  | IndexError
  | UnboundLocalError
  | NameError
  | LibraryError (e : LibError).

(** The calls into the toolkit, in the order they are made. *)
Inductive call :=
  | CallMolFromSmiles (s : string)
  | CallRDKFingerprint
  | CallFingerprintSimilarity
  | CallMolsToGridImage.

(** The notebook's global variables (an unbound name is [None]), what it
    has printed, what it has displayed and the calls it has made. *)
Record globals := {
  lines : option (list string);
  molecules : option (list mol_entry);
  query_smiles : option string;
  best_mol : option mol_entry;
  query_m : option Mol;
  match_m : option Mol;
  stdout : list string;
  displayed : list Image;
  calls : list call
}.

Definition set_lines (v : list string) (g : globals) : globals :=
  {| lines := Some v; molecules := molecules g; query_smiles := query_smiles g;
     best_mol := best_mol g; query_m := query_m g; match_m := match_m g;
     stdout := stdout g; displayed := displayed g; calls := calls g |}.

Definition set_molecules (v : list mol_entry) (g : globals) : globals :=
  {| lines := lines g; molecules := Some v; query_smiles := query_smiles g;
     best_mol := best_mol g; query_m := query_m g; match_m := match_m g;
     stdout := stdout g; displayed := displayed g; calls := calls g |}.

Definition set_query_smiles (v : string) (g : globals) : globals :=
  {| lines := lines g; molecules := molecules g; query_smiles := Some v;
     best_mol := best_mol g; query_m := query_m g; match_m := match_m g;
     stdout := stdout g; displayed := displayed g; calls := calls g |}.

Definition set_best_mol (v : mol_entry) (g : globals) : globals :=
  {| lines := lines g; molecules := molecules g; query_smiles := query_smiles g;
     best_mol := Some v; query_m := query_m g; match_m := match_m g;
     stdout := stdout g; displayed := displayed g; calls := calls g |}.

Definition set_query_m (v : Mol) (g : globals) : globals :=
  {| lines := lines g; molecules := molecules g; query_smiles := query_smiles g;
     best_mol := best_mol g; query_m := Some v; match_m := match_m g;
     stdout := stdout g; displayed := displayed g; calls := calls g |}.

Definition set_match_m (v : Mol) (g : globals) : globals :=
  {| lines := lines g; molecules := molecules g; query_smiles := query_smiles g;
     best_mol := best_mol g; query_m := query_m g; match_m := Some v;
     stdout := stdout g; displayed := displayed g; calls := calls g |}.

Definition add_stdout (v : string) (g : globals) : globals :=
  {| lines := lines g; molecules := molecules g; query_smiles := query_smiles g;
     best_mol := best_mol g; query_m := query_m g; match_m := match_m g;
     stdout := stdout g ++ [v]; displayed := displayed g; calls := calls g |}.

Definition add_displayed (v : Image) (g : globals) : globals :=
  {| lines := lines g; molecules := molecules g; query_smiles := query_smiles g;
     best_mol := best_mol g; query_m := query_m g; match_m := match_m g;
     stdout := stdout g; displayed := displayed g ++ [v]; calls := calls g |}.

Definition add_call (v : call) (g : globals) : globals :=
  {| lines := lines g; molecules := molecules g; query_smiles := query_smiles g;
     best_mol := best_mol g; query_m := query_m g; match_m := match_m g;
     stdout := stdout g; displayed := displayed g; calls := calls g ++ [v] |}.

(** ** Statements: state passing with exceptions

    A statement runs on the globals and either returns or raises; what it
    did to the globals before raising stays done. *)
Definition M (A : Type) : Type := globals -> (exn + A) * globals.

#[export] Instance M_ret : MRet M := fun A a g => (inr a, g).

#[export] Instance M_bind : MBind M := fun A B k m g =>
  match m g with
  | (inl e, g') => (inl e, g')
  | (inr a, g') => k a g'
  end.

Definition raise {A} (e : exn) : M A := fun g => (inl e, g).
Definition update (f : globals -> globals) : M unit := fun g => (inr tt, f g).

(** Reading a global name: [NameError] when it is unbound. *)
Definition load_name {A} (var : globals -> option A) : M A := fun g =>
  match var g with
  | Some v => (inr v, g)
  | None => (inl NameError, g)
  end.

(** [l[i]] and [del l[i]]. *)
Definition py_getitem {A} (i : Z) (l : list A) : M A :=
  match py_index i l with
  | Some j => match l !! j with Some x => mret x | None => raise IndexError end
  | None => raise IndexError
  end.

Definition py_del {A} (i : Z) (l : list A) : M (list A) :=
  match py_index i l with
  | Some j => mret (delete j l)
  | None => raise IndexError
  end.

Definition print (s : string) : M unit := update (add_stdout s).

(** A call into the toolkit: it is recorded, and its failure is raised. *)
Definition extern {A} (c : call) (r : LibError + A) : M A := fun g =>
  match r with
  | inl e => (inl (LibraryError e), add_call c g)
  | inr a => (inr a, add_call c g)
  end.

(** [for x in l: body], the loop's variables threaded through [S]. *)
Fixpoint for_each {A S} (body : A -> S -> M S) (l : list A) (s : S) : M S :=
  match l with
  | [] => mret s
  | x :: l' => s' ← body x s; for_each body l' s'
  end.

(** ** Import: reading the file and the parsing loop *)

(** [lines = f.read().split('\n'); print(lines[0]); del lines[0];
    del lines[-1]], on the text [content] that [f.read()] returned. *)
Definition load_lines (content : string) : M unit :=
  update (set_lines (split LF content));;
  ls ← load_name lines;
  header ← py_getitem 0 ls;
  print header;;
  ls ← load_name lines;
  ls1 ← py_del 0 ls;
  update (set_lines ls1);;
  ls ← load_name lines;
  ls2 ← py_del (-1) ls;
  update (set_lines ls2).

(** One turn of the parsing loop: [molecules.append] is looked up, the
    dictionary is built from field 0 and field 1, and it is appended.  The
    names [l] and [elements] are read by no other cell and are kept out of
    the globals. *)
Definition parse_line (l : string) (_ : unit) : M unit :=
  let elements := split TAB l in
  ms ← load_name molecules;
  e0 ← py_getitem 0 elements;
  e1 ← py_getitem 1 elements;
  update (set_molecules (ms ++ [{| name := e0; smiles := e1 |}])).

Definition parse_molecules : M unit :=
  update (set_molecules []);;
  ls ← load_name lines;
  for_each parse_line ls tt.

(** ** Search *)

(** The local variables of [most_similar] that the loop assigns;
    [best_mol] is unbound ([None]) until its first assignment. *)
Record locals := { max_similarity : Q; local_best_mol : option mol_entry }.

(** [Chem.RDKFingerprint(Chem.MolFromSmiles(s))]. *)
Definition fingerprint_of (s : string) : M Fingerprint :=
  m ← extern (CallMolFromSmiles s) (MolFromSmiles s);
  extern CallRDKFingerprint (RDKFingerprint m).

(** The body of the search loop; [a < b < c] is [a < b and b < c]. *)
Definition search_body (query_fp : Fingerprint) (test_mol : mol_entry)
    (v : locals) : M locals :=
  test_fp ← fingerprint_of (smiles test_mol);
  similarity ← extern CallFingerprintSimilarity
                 (FingerprintSimilarity test_fp query_fp);
  if Qltb (max_similarity v) similarity && Qltb similarity 1
  then mret {| max_similarity := similarity; local_best_mol := Some test_mol |}
  else mret v.

(** [tqdm(molecules, ...)] yields the elements of [molecules] in order and
    draws a progress bar; only the iteration is modelled. *)
Definition most_similar (query : string) : M mol_entry :=
  let v0 := {| max_similarity := 0; local_best_mol := None |} in
  query_fp ← fingerprint_of query;
  ms ← load_name molecules;
  v ← for_each (search_body query_fp) ms v0;
  match local_best_mol v with
  | Some b => mret b
  | None => raise UnboundLocalError
  end.

(** The same loop run the way the interpreter runs it: a list iterator
    holds an index into the list, each turn asks for the next element, and
    the loop ends when the index is past the end.  [fuel] bounds the number
    of requests; [None] is returned when it is used up. *)
Fixpoint iterate {A S} (fuel : nat) (body : A -> S -> M S) (l : list A)
    (i : nat) (s : S) : M (option S) :=
  match fuel with
  | O => mret None
  | Datatypes.S fuel' =>
      match l !! i with
      | None => mret (Some s)
      | Some x => s' ← body x s; iterate fuel' body l (Datatypes.S i) s'
      end
  end.

Definition most_similar_steps (fuel : nat) (query : string)
    : M (option mol_entry) :=
  let v0 := {| max_similarity := 0; local_best_mol := None |} in
  query_fp ← fingerprint_of query;
  ms ← load_name molecules;
  r ← iterate fuel (search_body query_fp) ms 0 v0;
  match r with
  | None => mret None
  | Some v =>
      match local_best_mol v with
      | Some b => mret (Some b)
      | None => raise UnboundLocalError
      end
  end.

(** ** The cells after the search function *)

(** [query_smiles = input("Input a valid SMILES string:\n")], on the line
    the console gives. *)
Definition input_query (console_line : string) : M unit :=
  print "Input a valid SMILES string:";;
  update (set_query_smiles console_line).

(** [best_mol = most_similar(query_smiles)]. *)
Definition search : M unit :=
  q ← load_name query_smiles;
  b ← most_similar q;
  update (set_best_mol b).

Definition report : M unit :=
  print "The best match was:";;
  b ← load_name best_mol;
  print (name b);;
  b ← load_name best_mol;
  print (smiles b).

Definition visualise : M unit :=
  q ← load_name query_smiles;
  qm ← extern (CallMolFromSmiles q) (MolFromSmiles q);
  update (set_query_m qm);;
  b ← load_name best_mol;
  mm ← extern (CallMolFromSmiles (smiles b)) (MolFromSmiles (smiles b));
  update (set_match_m mm);;
  qm ← load_name query_m;
  mm ← load_name match_m;
  img ← extern CallMolsToGridImage (MolsToGridImage qm mm);
  update (add_displayed img).

(** The cells run in order; a cell that raises stops the run. *)
Definition notebook (content console_line : string) : M unit :=
  load_lines content;;
  parse_molecules;;
  input_query console_line;;
  search;;
  report;;
  visualise.

End Notebook.

(** ** What a run returns and what it calls

    The values that the calls of a run return and the list of the calls it
    makes, as functions of the query and the records alone.  The facts
    below relate each of them to the statement it describes. *)

Section Views.

Context {L : Rdkit}.

(** *** The import

    [parse_fields] is the record the parsing loop builds from a line, when
    the line has the two fields it reads. *)
Definition parse_fields (l : string) : option mol_entry :=
  match split TAB l with
  | n :: s :: _ => Some {| name := n; smiles := s |}
  | _ => None
  end.

(** The outcome of the parsing loop on [ls] and the records it appends. *)
Fixpoint parse_lines (ls : list string) : (exn + unit) * list mol_entry :=
  match ls with
  | [] => (inr tt, [])
  | l :: ls' =>
      match parse_fields l with
      | None => (inl IndexError, [])
      | Some m => let (r, ms) := parse_lines ls' in (r, m :: ms)
      end
  end.

(** [m] has the first two fields of [l]; the other fields are dropped. *)
Definition parsed_from (l : string) (m : mol_entry) : Prop :=
  exists rest, split TAB l = name m :: smiles m :: rest.

(** Loading [content] gives a record list, with two records fewer than
    the file has lines. *)
Definition loads_records (content : string) (g : globals) : Prop :=
  let run := (load_lines content;; parse_molecules) g in
  exists ms,
    fst run = inr tt /\ molecules (snd run) = Some ms /\
    (Z.of_nat (length ms) = Z.of_nat (length (split LF content)) - 2)%Z.

(** *** The search

    What the calls of one fingerprint computation and of one turn of the
    loop return. *)
Definition fingerprint_value (s : string) : LibError + Fingerprint :=
  match MolFromSmiles s with
  | inl e => inl e
  | inr m => RDKFingerprint m
  end.

Definition score (query_fp : Fingerprint) (r : mol_entry) : LibError + Q :=
  match fingerprint_value (smiles r) with
  | inl e => inl e
  | inr fp => FingerprintSimilarity fp query_fp
  end.

Definition fingerprint_calls (s : string) : list call :=
  CallMolFromSmiles s ::
  match MolFromSmiles s with inl _ => [] | inr _ => [CallRDKFingerprint] end.

Definition body_calls (r : mol_entry) : list call :=
  fingerprint_calls (smiles r) ++
  match fingerprint_value (smiles r) with
  | inl _ => []
  | inr _ => [CallFingerprintSimilarity]
  end.

Definition assign (v : locals) (r : mol_entry) (s : Q) : locals :=
  if Qltb (max_similarity v) s && Qltb s 1
  then {| max_similarity := s; local_best_mol := Some r |}
  else v.

(** The locals after the loop, or the first failure of a call. *)
Fixpoint select (query_fp : Fingerprint) (ms : list mol_entry) (v : locals)
    : exn + locals :=
  match ms with
  | [] => inr v
  | r :: ms' =>
      match score query_fp r with
      | inl e => inl (LibraryError e)
      | inr s => select query_fp ms' (assign v r s)
      end
  end.

Fixpoint scan_calls (query_fp : Fingerprint) (ms : list mol_entry) : list call :=
  match ms with
  | [] => []
  | r :: ms' =>
      body_calls r ++
      match score query_fp r with
      | inl _ => []
      | inr _ => scan_calls query_fp ms'
      end
  end.

Definition add_calls (cs : list call) (g : globals) : globals :=
  {| lines := lines g; molecules := molecules g; query_smiles := query_smiles g;
     best_mol := best_mol g; query_m := query_m g; match_m := match_m g;
     stdout := stdout g; displayed := displayed g; calls := calls g ++ cs |}.

(** The outcome and the calls of a whole search over [ms]. *)
Definition search_outcome (query : string) (ms : list mol_entry)
    : exn + mol_entry :=
  match fingerprint_value query with
  | inl e => inl (LibraryError e)
  | inr query_fp =>
      match select query_fp ms
              {| max_similarity := 0; local_best_mol := None |} with
      | inl e => inl e
      | inr v =>
          match local_best_mol v with
          | Some b => inr b
          | None => inl UnboundLocalError
          end
      end
  end.

Definition search_calls (query : string) (ms : list mol_entry) : list call :=
  fingerprint_calls query ++
  match fingerprint_value query with
  | inl _ => []
  | inr query_fp => scan_calls query_fp ms
  end.

(** [x] is scored [s] against the query and [P s] holds. *)
Definition scored (query_fp : Fingerprint) (P : Q -> Prop) (x : mol_entry)
    : Prop :=
  exists s, score query_fp x = inr s /\ P s.

(** The search returns a record whose score is the largest of all the
    scores of the records. *)
Definition returns_maximum (query : string) (g : globals) : Prop :=
  exists ms r query_fp sr,
    molecules g = Some ms /\
    fst (most_similar query g) = inr r /\
    fingerprint_value query = inr query_fp /\
    score query_fp r = inr sr /\
    Forall (scored query_fp (fun s => s <= sr)%Q) ms.

(** Every failure of a run comes from the toolkit. *)
Definition only_library_failures {A} (run : (exn + A) * globals) : Prop :=
  forall ex, fst run = inl ex -> exists e, ex = LibraryError e.

(** A statement that leaves the global [molecules] as it found it. *)
Definition keeps_molecules {A} (m : M A) : Prop :=
  forall g, molecules (snd (m g)) = molecules g.

(** *** The search as a left fold

    The reference the search is compared with: one left fold over the
    record list.  Its step takes the records in list order, computes the
    fingerprint of the record once and its similarity to the query once,
    and tracks the maximum; the fingerprint of the query is computed once,
    before the fold. *)
Definition scan_step (query_fp : Fingerprint) (acc : M locals)
    (r : mol_entry) : M locals :=
  v ← acc;
  fp ← fingerprint_of (smiles r);
  s ← extern CallFingerprintSimilarity (FingerprintSimilarity fp query_fp);
  mret (assign v r s).

Definition linear_scan (query : string) : M mol_entry :=
  query_fp ← fingerprint_of query;
  ms ← load_name molecules;
  v ← fold_left (scan_step query_fp) ms
        (mret {| max_similarity := 0; local_best_mol := None |});
  match local_best_mol v with
  | Some b => mret b
  | None => raise UnboundLocalError
  end.

(** The calls of a scan in which every record is visited once, in order. *)
Definition linear_scan_calls (query : string) (ms : list mol_entry)
    : list call :=
  [CallMolFromSmiles query; CallRDKFingerprint] ++
  flat_map (fun r => [CallMolFromSmiles (smiles r); CallRDKFingerprint;
                      CallFingerprintSimilarity]) ms.

(** A run that ended ([inr (Some _)] or an exception), as opposed to one
    that used up its fuel. *)
Definition ended {A} (r : (exn + A) * globals) : (exn + option A) * globals :=
  (match fst r with inl e => inl e | inr a => inr (Some a) end, snd r).

(** The outcome of the drawing cell. *)
Definition visualise_outcome (query : string) (b : mol_entry) : exn + unit :=
  match MolFromSmiles query with
  | inl e => inl (LibraryError e)
  | inr qm =>
      match MolFromSmiles (smiles b) with
      | inl e => inl (LibraryError e)
      | inr mm =>
          match MolsToGridImage qm mm with
          | inl e => inl (LibraryError e)
          | inr _ => inr tt
          end
      end
  end.

(** A statement whose outcome, output, and effect on [molecules] and
    [best_mol] are the same from every state of the globals: it prints
    [out], and it either assigns a variable a value that does not depend on
    the state or leaves the variable as it was. *)
Definition uniform {A} (m : M A) : Prop :=
  exists r out mol bm, forall g,
    fst (m g) = r /\
    stdout (snd (m g)) = stdout g ++ out /\
    molecules (snd (m g)) =
      match mol with Some v => Some v | None => molecules g end /\
    best_mol (snd (m g)) =
      match bm with Some v => Some v | None => best_mol g end.

(** The text of a file in the format the import cells read: the header
    line, one line per record with the name, a tab and the SMILES, and a
    newline after every line. *)
Definition line_of (m : mol_entry) : string :=
  name m +:+ String TAB (smiles m).

Definition file_text (header : string) (recs : list mol_entry) : string :=
  join LF (header :: map line_of recs ++ [EmptyString]).

(** Both fields of a record are free of tabs and of newlines. *)
Definition plain_fields (m : mol_entry) : Prop :=
  has_char TAB (name m) = false /\ has_char TAB (smiles m) = false /\
  has_char LF (name m) = false /\ has_char LF (smiles m) = false.

End Views.

(** ** A small toolkit to run the notebook on

    A molecule is its SMILES text, the fingerprint counts the carbon
    letters, and the similarity of two fingerprints is the ratio of the
    smaller to the larger.  The empty text has no fingerprint. *)
Module Toy.

Fixpoint carbons (s : string) : nat :=
  match s with
  | EmptyString => 0
  | String c s' => (if Ascii.eqb c "C"%char then 1 else 0) + carbons s'
  end.

Inductive toy_error := BadMolecule.

#[export] Instance toolkit : Rdkit := {|
  Mol := string;
  Fingerprint := nat;
  Image := string * string;
  LibError := toy_error;
  MolFromSmiles s := inr s;
  RDKFingerprint m :=
    match m with EmptyString => inl BadMolecule | _ => inr (carbons m) end;
  FingerprintSimilarity a b :=
    inr (match Nat.max a b with
         | O => 1%Q
         | Datatypes.S _ => Z.of_nat (Nat.min a b) # Pos.of_nat (Nat.max a b)
         end);
  MolsToGridImage a b := inr (a, b)
|}.

Definition empty_globals : globals := {|
  lines := None; molecules := None; query_smiles := None; best_mol := None;
  query_m := None; match_m := None; stdout := []; displayed := []; calls := []
|}.

Definition with_molecules (ms : list mol_entry) : globals :=
  set_molecules ms empty_globals.

Definition ethane := {| name := "ethane"; smiles := "CC" |}.
Definition methane := {| name := "methane"; smiles := "C" |}.
Definition propane := {| name := "propane"; smiles := "CCC" |}.
Definition butane := {| name := "butane"; smiles := "CCCC" |}.
Definition water := {| name := "water"; smiles := "O" |}.
Definition blank := {| name := "blank"; smiles := EmptyString |}.

Definition header_line : string := join TAB ["Name"; "Smiles"].

(** A well-formed file: a header, three data lines (one with a third
    field), and the empty last line. *)
Definition sample_file : string :=
  join LF [header_line; join TAB ["methane"; "C"; "CH4"];
           join TAB ["ethane"; "CC"]; join TAB ["propane"; "CCC"]; EmptyString].

(** A file whose only molecule is ethane. *)
Definition ethane_file : string :=
  join LF [header_line; join TAB ["ethane"; "CC"]; EmptyString].

(** A file whose second data line has no tab. *)
Definition broken_file : string :=
  join LF [header_line; join TAB ["methane"; "C"]; "butane";
           join TAB ["propane"; "CCC"]; EmptyString].

End Toy.

(** * Facts *)

Lemma Qltb_lt (x y : Q) : Qltb x y = true <-> (x < y)%Q.
Proof.
  unfold Qltb. rewrite negb_true_iff. split; intros H.
  - apply Qnot_le_lt. intros Hle. apply Qle_bool_iff in Hle. congruence.
  - destruct (Qle_bool y x) eqn:E; [|reflexivity].
    apply Qle_bool_iff in E. exfalso. apply (Qlt_not_le _ _ H E).
Qed.

Lemma Qltb_ge (x y : Q) : Qltb x y = false <-> (y <= x)%Q.
Proof.
  unfold Qltb. rewrite negb_false_iff. apply Qle_bool_iff.
Qed.

Section SearchFacts.

Context {L : Rdkit}.

Lemma add_calls_nil g : add_calls [] g = g.
Proof. destruct g; unfold add_calls; simpl. by rewrite app_nil_r. Qed.

Lemma add_calls_app cs1 cs2 g :
  add_calls cs2 (add_calls cs1 g) = add_calls (cs1 ++ cs2) g.
Proof. unfold add_calls; simpl. by rewrite app_assoc. Qed.

Lemma add_call_calls c g : add_call c g = add_calls [c] g.
Proof. reflexivity. Qed.

Lemma bind_run {A B} (m : M A) (k : A -> M B) g :
  (m ≫= k) g =
  match m g with
  | (inl e, g') => (inl e, g')
  | (inr a, g') => k a g'
  end.
Proof. reflexivity. Qed.

Lemma update_run f g : update f g = (inr tt, f g).
Proof. reflexivity. Qed.

Lemma load_name_run {A} (var : globals -> option A) g v :
  var g = Some v -> load_name var g = (inr v, g).
Proof. intros H. unfold load_name. by rewrite H. Qed.

Lemma fingerprint_of_run s g :
  fingerprint_of s g =
  (match fingerprint_value s with
   | inl e => inl (LibraryError e)
   | inr fp => inr fp
   end, add_calls (fingerprint_calls s) g).
Proof.
  unfold fingerprint_of, fingerprint_value, fingerprint_calls.
  rewrite bind_run. unfold extern at 2.
  destruct (MolFromSmiles s) as [e|m]; [reflexivity|].
  unfold extern. rewrite !add_call_calls, add_calls_app.
  by destruct (RDKFingerprint m).
Qed.

Lemma search_body_run query_fp r v g :
  search_body query_fp r v g =
  (match score query_fp r with
   | inl e => inl (LibraryError e)
   | inr s => inr (assign v r s)
   end, add_calls (body_calls r) g).
Proof.
  unfold search_body, score, body_calls.
  rewrite bind_run, fingerprint_of_run.
  destruct (fingerprint_value (smiles r)) as [e|fp].
  - by rewrite app_nil_r.
  - rewrite bind_run. unfold extern.
    rewrite add_call_calls, add_calls_app.
    destruct (FingerprintSimilarity fp query_fp) as [e|s]; [reflexivity|].
    unfold assign. by destruct (_ && _).
Qed.

Lemma for_each_search_run query_fp ms v g :
  for_each (search_body query_fp) ms v g =
  (select query_fp ms v, add_calls (scan_calls query_fp ms) g).
Proof.
  revert v g. induction ms as [|r ms IH]; intros v g; simpl.
  - by rewrite add_calls_nil.
  - rewrite bind_run, search_body_run.
    destruct (score query_fp r) as [e|s].
    + by rewrite app_nil_r.
    + by rewrite IH, add_calls_app.
Qed.

Lemma most_similar_run query ms g :
  molecules g = Some ms ->
  most_similar query g =
  (search_outcome query ms, add_calls (search_calls query ms) g).
Proof.
  intros Hms. unfold most_similar, search_outcome, search_calls.
  rewrite bind_run, fingerprint_of_run.
  destruct (fingerprint_value query) as [e|query_fp].
  - by rewrite app_nil_r.
  - rewrite bind_run. unfold load_name at 1. simpl. rewrite Hms.
    rewrite bind_run, for_each_search_run, add_calls_app.
    destruct (select _ _ _) as [e|v]; [reflexivity|].
    by destruct (local_best_mol v).
Qed.

Lemma most_similar_run_unbound query g :
  molecules g = None ->
  most_similar query g =
  (match fingerprint_value query with
   | inl e => inl (LibraryError e)
   | inr _ => inl NameError
   end, add_calls (fingerprint_calls query) g).
Proof.
  intros Hms. unfold most_similar.
  rewrite bind_run, fingerprint_of_run.
  destruct (fingerprint_value query) as [e|query_fp]; [reflexivity|].
  rewrite bind_run. unfold load_name. simpl. by rewrite Hms.
Qed.

(** *** The selection made by the loop *)

Lemma assign_cases v r s :
  (assign v r s = {| max_similarity := s; local_best_mol := Some r |} /\
   (max_similarity v < s)%Q /\ (s < 1)%Q) \/
  (assign v r s = v /\ ((s <= max_similarity v)%Q \/ (1 <= s)%Q)).
Proof.
  unfold assign.
  destruct (Qltb (max_similarity v) s) eqn:E1; simpl.
  - destruct (Qltb s 1) eqn:E2.
    + left. apply Qltb_lt in E1, E2. auto.
    + right. apply Qltb_ge in E2. auto.
  - right. apply Qltb_ge in E1. auto.
Qed.

Lemma select_app query_fp l1 l2 v :
  select query_fp (l1 ++ l2) v =
  match select query_fp l1 v with
  | inl e => inl e
  | inr v1 => select query_fp l2 v1
  end.
Proof.
  revert v. induction l1 as [|r l1 IH]; intros v; simpl; [reflexivity|].
  destruct (score query_fp r); [reflexivity|apply IH].
Qed.

(** Records that do not beat the current maximum leave the locals alone. *)
Lemma select_keep query_fp l v :
  Forall (scored query_fp (fun s => s < 1 -> s <= max_similarity v)%Q) l ->
  select query_fp l v = inr v.
Proof.
  induction 1 as [|r l (s & Hs & Hle) _ IH]; simpl; [reflexivity|].
  rewrite Hs.
  destruct (assign_cases v r s) as [(_ & H1 & H2)|(-> & _)]; [|exact IH].
  specialize (Hle H2). lra.
Qed.

(** Records below a bound keep the maximum below that bound. *)
Lemma select_below query_fp l v b :
  Forall (scored query_fp (fun s => s < 1 -> s < b)%Q) l ->
  (max_similarity v < b)%Q ->
  exists v', select query_fp l v = inr v' /\ (max_similarity v' < b)%Q.
Proof.
  intros Hl. revert v. induction Hl as [|r l (s & Hs & Hlt) _ IH]; intros v Hv.
  - exists v. auto.
  - simpl. rewrite Hs.
    destruct (assign_cases v r s) as [(-> & H1 & H2)|(-> & _)].
    + apply IH. simpl. auto.
    + apply IH, Hv.
Qed.

(** What the loop has selected when it ends without a failure. *)
Lemma select_inv query_fp ms v v' :
  select query_fp ms v = inr v' ->
  Forall (scored query_fp (fun s => s < 1 -> s <= max_similarity v')%Q) ms /\
  (max_similarity v <= max_similarity v')%Q /\
  (v' = v \/
   exists pre r post sr,
     ms = pre ++ r :: post /\
     v' = {| max_similarity := sr; local_best_mol := Some r |} /\
     score query_fp r = inr sr /\
     (max_similarity v < sr)%Q /\ (sr < 1)%Q /\
     Forall (scored query_fp (fun s => s < 1 -> s < sr)%Q) pre).
Proof.
  revert v. induction ms as [|r ms IH]; intros v; simpl.
  - intros [= <-]. split; [constructor|]. split; [lra|]. by left.
  - destruct (score query_fp r) as [e|s] eqn:Hs; [discriminate|].
    intros Hsel. destruct (IH _ Hsel) as (Hall & Hmono & Hlast).
    assert (Hr : (s < 1 -> s <= max_similarity (assign v r s))%Q /\
                 (max_similarity v <= max_similarity (assign v r s))%Q).
    { destruct (assign_cases v r s) as [(-> & H1 & H2)|(-> & [H|H])];
        simpl; split; intros; lra. }
    destruct Hr as [Hr1 Hr2].
    split; [|split; [lra|]].
    { constructor; [|exact Hall]. exists s. split; [exact Hs|]. intros. lra. }
    destruct Hlast as [->|(pre & r' & post & sr & -> & -> & Hsr & Hlt & Hlt1 & Hpre)].
    + destruct (assign_cases v r s) as [(-> & H1 & H2)|(-> & _)]; [|by left].
      right. exists [], r, ms, s. repeat split; auto.
    + right. exists (r :: pre), r', post, sr. repeat split; auto.
      * destruct (assign_cases v r s) as [(E & H1 & H2)|(E & _)];
          rewrite E in Hlt; simpl in Hlt; lra.
      * constructor; [|exact Hpre]. exists s. split; [exact Hs|].
        intros. lra.
Qed.

(** The loop fails exactly at the first record whose calls fail. *)
Lemma select_fails query_fp ms v ex :
  select query_fp ms v = inl ex <->
  exists e pre x post,
    ex = LibraryError e /\ ms = pre ++ x :: post /\
    Forall (scored query_fp (fun _ => True)) pre /\
    score query_fp x = inl e.
Proof.
  split.
  - revert v. induction ms as [|r ms IH]; intros v; simpl; [discriminate|].
    destruct (score query_fp r) as [e|s] eqn:Hs.
    + intros [= <-]. exists e, [], r, ms. repeat split; auto.
    + intros Hsel. destruct (IH _ Hsel) as (e & pre & x & post & -> & -> & Hpre & Hx).
      exists e, (r :: pre), x, post. repeat split; auto.
      constructor; [|exact Hpre]. by exists s.
  - intros (e & pre & x & post & -> & -> & Hpre & Hx).
    revert v. induction Hpre as [|r pre (s & Hs & _) _ IH]; intros v; simpl.
    + by rewrite Hx.
    + rewrite Hs. apply IH.
Qed.

Lemma select_total query_fp ms v :
  Forall (scored query_fp (fun _ => True)) ms ->
  exists v', select query_fp ms v = inr v'.
Proof.
  intros Hall. destruct (select query_fp ms v) as [ex|v'] eqn:E; [|by exists v'].
  apply select_fails in E as (e & pre & x & post & _ & -> & _ & Hx).
  apply Forall_app in Hall as [_ Hall]. apply Forall_cons in Hall as [(s & Hs & _) _].
  congruence.
Qed.

Lemma scored_weaken query_fp (P P' : Q -> Prop) l :
  (forall s, P s -> P' s) ->
  Forall (scored query_fp P) l -> Forall (scored query_fp P') l.
Proof.
  intros HP Hl. eapply Forall_impl; [exact Hl|].
  intros x (s & Hs & H). exists s. auto.
Qed.

(** The search returns [r] exactly when [r] is the first record that
    reaches the largest score below 1, that score being above 0. *)
Lemma search_outcome_returns query ms r :
  search_outcome query ms = inr r <->
  exists query_fp pre post sr,
    fingerprint_value query = inr query_fp /\
    ms = pre ++ r :: post /\
    score query_fp r = inr sr /\ (0 < sr)%Q /\ (sr < 1)%Q /\
    Forall (scored query_fp (fun s => s < 1 -> s < sr)%Q) pre /\
    Forall (scored query_fp (fun s => s < 1 -> s <= sr)%Q) post.
Proof.
  unfold search_outcome. split.
  - destruct (fingerprint_value query) as [e|query_fp]; [discriminate|].
    destruct (select _ _ _) as [e|v'] eqn:Hsel; [discriminate|].
    destruct (local_best_mol v') as [b|] eqn:Hb; [|discriminate].
    intros [= ->].
    destruct (select_inv _ _ _ _ Hsel) as (Hall & _ & Hlast).
    destruct Hlast as [->|(pre & r' & post & sr & -> & -> & Hsr & H0 & H1 & Hpre)];
      [discriminate|].
    simpl in *. injection Hb as ->.
    exists query_fp, pre, post, sr. repeat split; auto.
    apply Forall_app in Hall as [_ Hall]. by apply Forall_cons in Hall as [_ Hall].
  - intros (query_fp & pre & post & sr & -> & -> & Hsr & H0 & H1 & Hpre & Hpost).
    rewrite select_app.
    destruct (select_below query_fp pre
                {| max_similarity := 0; local_best_mol := None |} sr Hpre H0)
      as (v1 & -> & Hv1).
    simpl. rewrite Hsr.
    destruct (assign_cases v1 r sr) as [(-> & _)|(_ & [H|H])]; [|lra|lra].
    by rewrite select_keep.
Qed.

(** ** The claims about [most_similar] *)

(** C1, as amended.  When no call into the toolkit fails and some record
    scores strictly between 0 and 1, [most_similar] returns a record of the
    list whose score is below 1 and is the largest of the scores below 1:
    records that score 1 or more are passed over. *)
Theorem most_similar_best_below_one query g ms query_fp :
  molecules g = Some ms ->
  fingerprint_value query = inr query_fp ->
  Forall (scored query_fp (fun _ => True)) ms ->
  Exists (scored query_fp (fun s => 0 < s /\ s < 1)%Q) ms ->
  exists r sr,
    fst (most_similar query g) = inr r /\
    r ∈ ms /\
    score query_fp r = inr sr /\ (sr < 1)%Q /\
    Forall (scored query_fp (fun s => s < 1 -> s <= sr)%Q) ms.
Proof.
  intros Hms Hq Hall Hex.
  rewrite (most_similar_run _ _ _ Hms). simpl.
  unfold search_outcome. rewrite Hq.
  destruct (select_total query_fp ms
              {| max_similarity := 0; local_best_mol := None |} Hall)
    as (v' & Hsel).
  rewrite Hsel.
  destruct (select_inv _ _ _ _ Hsel) as (Hle & _ & Hlast).
  destruct Hlast as [->|(pre & r & post & sr & -> & -> & Hsr & H0 & H1 & Hpre)].
  - exfalso. apply Exists_exists in Hex as (x & Hx & s & Hs & Hs0 & Hs1).
    rewrite Forall_forall in Hle. destruct (Hle x Hx) as (s' & Hs' & Hle').
    simpl in Hle'. rewrite Hs in Hs'. injection Hs' as <-.
    specialize (Hle' Hs1). lra.
  - simpl. exists r, sr. repeat split; auto.
    apply elem_of_app. right. apply elem_of_cons. by left.
Qed.

(** C2.  [most_similar] returns [r] exactly when [r] stands at the first
    place of the list where the largest score below 1 is reached (and that
    score is above 0, the initial maximum): the records before it score 1
    or more, or strictly less than [r]; the records after it score 1 or
    more, or no more than [r].  The score of the returned record is never 1. *)
Theorem most_similar_first_best query g ms r :
  molecules g = Some ms ->
  (fst (most_similar query g) = inr r <->
   exists query_fp pre post sr,
     fingerprint_value query = inr query_fp /\
     ms = pre ++ r :: post /\
     score query_fp r = inr sr /\ (0 < sr)%Q /\ (sr < 1)%Q /\ ~ (sr == 1)%Q /\
     Forall (scored query_fp (fun s => s < 1 -> s < sr)%Q) pre /\
     Forall (scored query_fp (fun s => s < 1 -> s <= sr)%Q) post).
Proof.
  intros Hms. rewrite (most_similar_run _ _ _ Hms). simpl.
  rewrite search_outcome_returns. split.
  - intros (query_fp & pre & post & sr & Hq & E & Hsr & H0 & H1 & Hpre & Hpost).
    exists query_fp, pre, post, sr. repeat split; auto. lra.
  - intros (query_fp & pre & post & sr & Hq & E & Hsr & H0 & H1 & _ & Hpre & Hpost).
    exists query_fp, pre, post, sr. repeat split; auto.
Qed.

(** C3.  When the query has a fingerprint and every record of the list (if
    there is any) scores 0 or 1, [best_mol] is never assigned and the
    [return] raises [UnboundLocalError]. *)
Theorem most_similar_unbound_local query g ms query_fp :
  molecules g = Some ms ->
  fingerprint_value query = inr query_fp ->
  Forall (scored query_fp (fun s => s == 0 \/ s == 1)%Q) ms ->
  fst (most_similar query g) = inl UnboundLocalError.
Proof.
  intros Hms Hq Hall.
  rewrite (most_similar_run _ _ _ Hms). simpl.
  unfold search_outcome. rewrite Hq.
  rewrite select_keep; [reflexivity|].
  eapply scored_weaken; [|exact Hall].
  simpl. intros s [H|H] Hlt; lra.
Qed.

(** C4, as amended.  A failure of the toolkit is passed on as it is:
    [most_similar] raises the toolkit's error [e] exactly when the first
    call that fails (for the query, or else for the first record one of
    whose calls fails) fails with [e]. *)
Theorem most_similar_library_failure query g ms e :
  molecules g = Some ms ->
  (fst (most_similar query g) = inl (LibraryError e) <->
   fingerprint_value query = inl e \/
   exists query_fp pre x post,
     fingerprint_value query = inr query_fp /\
     ms = pre ++ x :: post /\
     Forall (scored query_fp (fun _ => True)) pre /\
     score query_fp x = inl e).
Proof.
  intros Hms. rewrite (most_similar_run _ _ _ Hms). simpl.
  unfold search_outcome.
  destruct (fingerprint_value query) as [e'|query_fp].
  - split.
    + intros [= ->]. by left.
    + intros [[= ->]|(? & ? & ? & ? & [=] & _)]. reflexivity.
  - destruct (select _ _ _) as [ex|v'] eqn:Hsel.
    + split.
      * intros [= ->]. right.
        apply select_fails in Hsel as (e' & pre & x & post & [= <-] & -> & Hpre & Hx).
        by exists query_fp, pre, x, post.
      * intros [[=]|(fp & pre & x & post & [= <-] & -> & Hpre & Hx)].
        assert (Hsel' : select query_fp (pre ++ x :: post)
                          {| max_similarity := 0; local_best_mol := None |}
                        = inl (LibraryError e)).
        { apply select_fails. by exists e, pre, x, post. }
        congruence.
    + split.
      * destruct (local_best_mol v'); discriminate.
      * intros [[=]|(fp & pre & x & post & [= <-] & -> & Hpre & Hx)].
        assert (Hsel' : select query_fp (pre ++ x :: post)
                          {| max_similarity := 0; local_best_mol := None |}
                        = inl (LibraryError e)).
        { apply select_fails. by exists e, pre, x, post. }
        congruence.
Qed.

(** *** Frame: what a statement leaves alone *)

Lemma keeps_ret {A} (a : A) : keeps_molecules (mret a).
Proof. by intros g. Qed.

Lemma keeps_raise {A} e : keeps_molecules (@raise _ A e).
Proof. by intros g. Qed.

Lemma keeps_load_name {A} (var : globals -> option A) :
  keeps_molecules (load_name var).
Proof. intros g. unfold load_name. by destruct (var g). Qed.

Lemma keeps_extern {A} c (r : LibError + A) : keeps_molecules (extern c r).
Proof. intros g. unfold extern. by destruct r. Qed.

Lemma keeps_update f :
  (forall g, molecules (f g) = molecules g) -> keeps_molecules (update f).
Proof. intros Hf g. apply Hf. Qed.

Lemma keeps_bind {A B} (m : M A) (k : A -> M B) :
  keeps_molecules m -> (forall a, keeps_molecules (k a)) ->
  keeps_molecules (m ≫= k).
Proof.
  intros Hm Hk g. rewrite bind_run. specialize (Hm g).
  destruct (m g) as [[e|a] g']; simpl in *; [exact Hm|].
  by rewrite Hk.
Qed.

Lemma keeps_for_each {A S} (body : A -> S -> M S) l s :
  (forall x s, keeps_molecules (body x s)) ->
  keeps_molecules (for_each body l s).
Proof.
  intros Hbody. revert s. induction l as [|x l IH]; intros s; simpl.
  - apply keeps_ret.
  - apply keeps_bind; [apply Hbody|exact IH].
Qed.

Create HintDb frame.

#[local] Hint Resolve keeps_ret keeps_raise keeps_load_name keeps_extern
  keeps_for_each : frame.

Ltac frame :=
  repeat first
    [ solve [auto with frame]
    | apply keeps_update; reflexivity
    | match goal with
      | |- keeps_molecules (match ?x with _ => _ end) => destruct x
      end
    | apply keeps_bind; [|intros] ].

Lemma keeps_fingerprint_of s : keeps_molecules (fingerprint_of s).
Proof. unfold fingerprint_of. frame. Qed.

Lemma keeps_search_body query_fp r v : keeps_molecules (search_body query_fp r v).
Proof. unfold search_body. pose proof keeps_fingerprint_of. frame. Qed.

Lemma keeps_most_similar query : keeps_molecules (most_similar query).
Proof.
  unfold most_similar.
  pose proof keeps_fingerprint_of. pose proof keeps_search_body. frame.
Qed.

(** C6.  [most_similar] leaves [molecules] as it was, whether it returns
    or raises, and so do the cells that follow the parsing loop: the
    prompt, the search, the report and the drawing. *)
Theorem molecules_never_mutated :
  (forall query g, molecules (snd (most_similar query g)) = molecules g) /\
  (forall console_line g,
     molecules (snd ((input_query console_line;; search;; report;; visualise) g))
     = molecules g).
Proof.
  split.
  - intros query. apply keeps_most_similar.
  - intros console_line.
    change (keeps_molecules
              (input_query console_line;; search;; report;; visualise)).
    unfold input_query, search, report, visualise, print.
    pose proof keeps_most_similar. frame.
Qed.

(** *** The search is a linear scan *)

Lemma fold_scan_step query_fp ms (acc : M locals) g :
  fold_left (scan_step query_fp) ms acc g =
  (acc ≫= for_each (search_body query_fp) ms) g.
Proof.
  revert acc g. induction ms as [|r ms IH]; intros acc g; simpl.
  - rewrite bind_run. by destruct (acc g) as [[e|v] g'].
  - rewrite IH, !bind_run. unfold scan_step. rewrite bind_run.
    destruct (acc g) as [[e|v] g']; [reflexivity|].
    unfold search_body. rewrite !bind_run.
    destruct (fingerprint_of (smiles r) g') as [[e|fp] g1]; [reflexivity|].
    rewrite !bind_run.
    destruct (extern _ _ g1) as [[e|s] g2]; [reflexivity|].
    unfold assign. by destruct (_ && _).
Qed.

(** The calls of the loop are the first calls of a full scan, and all of
    them when no call fails. *)
Lemma scan_calls_prefix query_fp ms :
  exists rest,
    flat_map (fun r => [CallMolFromSmiles (smiles r); CallRDKFingerprint;
                        CallFingerprintSimilarity]) ms
    = scan_calls query_fp ms ++ rest /\
    (Forall (scored query_fp (fun _ => True)) ms -> rest = []).
Proof.
  induction ms as [|r ms (rest & IH & Hrest)]; simpl.
  - exists []. auto.
  - unfold body_calls, fingerprint_calls, score, fingerprint_value.
    destruct (MolFromSmiles (smiles r)) as [e|m] eqn:Hm.
    { eexists. split; [simpl; reflexivity|].
      intros H. apply Forall_cons in H as [(s & Hs & _) _].
      unfold score, fingerprint_value in Hs. rewrite Hm in Hs. discriminate. }
    destruct (RDKFingerprint m) as [e|fp] eqn:Hfp.
    { eexists. split; [simpl; reflexivity|].
      intros H. apply Forall_cons in H as [(s & Hs & _) _].
      unfold score, fingerprint_value in Hs. rewrite Hm, Hfp in Hs. discriminate. }
    destruct (FingerprintSimilarity fp query_fp) as [e|s] eqn:Hs.
    { eexists. split; [simpl; reflexivity|].
      intros H. apply Forall_cons in H as [(s & Hs' & _) _].
      unfold score, fingerprint_value in Hs'. rewrite Hm, Hfp, Hs in Hs'.
      discriminate. }
    exists rest. split; [simpl; by rewrite IH|].
    intros H. apply Forall_cons in H as [_ H]. auto.
Qed.

(** C7.  [most_similar] is the left fold [linear_scan], on every query and
    state.  The calls it makes are the first calls of a scan that visits
    each record once, in list order (the two fingerprint calls for the
    query, then for each record its two fingerprint calls and its similarity
    call), and all the calls of that scan unless a failure of the toolkit
    cuts the search short. *)
Theorem most_similar_is_linear_scan query g :
  most_similar query g = linear_scan query g /\
  (forall ms,
     molecules g = Some ms ->
     exists made rest,
       calls (snd (most_similar query g)) = calls g ++ made /\
       linear_scan_calls query ms = made ++ rest /\
       ((forall e, fst (most_similar query g) <> inl (LibraryError e)) ->
        rest = [])).
Proof.
  split.
  - unfold most_similar, linear_scan. rewrite !bind_run.
    destruct (fingerprint_of query g) as [[e|query_fp] g1]; [reflexivity|].
    rewrite !bind_run.
    destruct (load_name molecules g1) as [[e|ms] g2]; [reflexivity|].
    rewrite !bind_run, fold_scan_step. reflexivity.
  - intros ms Hms. rewrite (most_similar_run _ _ _ Hms). simpl.
    exists (search_calls query ms).
    unfold search_outcome, search_calls, linear_scan_calls, fingerprint_calls.
    destruct (fingerprint_value query) as [e|query_fp] eqn:Hq.
    { unfold fingerprint_value in Hq.
      destruct (MolFromSmiles query) as [e'|m];
        (eexists; split; [reflexivity|]);
        (split; [simpl; reflexivity|]); intros Hok; by destruct (Hok e). }
    unfold fingerprint_value in Hq.
    destruct (MolFromSmiles query) as [e|m]; [discriminate|].
    destruct (scan_calls_prefix query_fp ms) as (rest & -> & Hrest).
    exists rest. split; [reflexivity|]. split; [reflexivity|].
    intros Hok. apply Hrest.
    destruct (select _ _ _) as [ex|v'] eqn:Hsel.
    + apply select_fails in Hsel as (e & _ & _ & _ & -> & _). by destruct (Hok e).
    + apply select_inv in Hsel as (Hall & _).
      eapply scored_weaken; [|exact Hall]. auto.
Qed.

(** *** The loop ends *)

Lemma iterate_ends {A S} (body : A -> S -> M S) (l : list A) fuel i s g :
  length l - i < fuel ->
  iterate fuel body l i s g = ended (for_each body (drop i l) s g).
Proof.
  revert i s g. induction fuel as [|fuel IH]; intros i s g Hfuel; [lia|].
  simpl. destruct (l !! i) as [x|] eqn:Hi.
  - rewrite (drop_S _ _ _ Hi). simpl. rewrite !bind_run.
    destruct (body x s g) as [[e|s'] g']; [reflexivity|].
    apply IH. apply lookup_lt_Some in Hi. lia.
  - apply lookup_ge_None in Hi. by rewrite drop_ge.
Qed.

(** C8.  Run one request to the list iterator at a time, the search ends
    within one request more than there are records, whatever the query and
    the list: with that much fuel the stepwise run gives what [most_similar]
    gives, a record or an exception, and never runs out. *)
Theorem most_similar_terminates query g fuel :
  length (default [] (molecules g)) < fuel ->
  most_similar_steps fuel query g = ended (most_similar query g).
Proof.
  intros Hfuel. destruct (molecules g) as [ms|] eqn:Hms; simpl in Hfuel.
  - rewrite (most_similar_run _ _ _ Hms).
    unfold most_similar_steps, ended, search_outcome, search_calls. simpl.
    rewrite bind_run, fingerprint_of_run.
    destruct (fingerprint_value query) as [e|query_fp]; [by rewrite app_nil_r|].
    rewrite bind_run, (load_name_run molecules _ ms) by exact Hms.
    rewrite bind_run, iterate_ends by lia.
    rewrite drop_0, for_each_search_run, add_calls_app. unfold ended. simpl.
    destruct (select _ _ _) as [e|v]; [reflexivity|].
    by destruct (local_best_mol v).
  - rewrite (most_similar_run_unbound _ _ Hms).
    unfold most_similar_steps, ended. simpl.
    rewrite bind_run, fingerprint_of_run.
    destruct (fingerprint_value query) as [e|query_fp]; [reflexivity|].
    rewrite bind_run. unfold load_name. simpl. by rewrite Hms.
Qed.

End SearchFacts.

(** ** The import cells *)

Section ImportFacts.

Context {L : Rdkit}.

Lemma split_cons sep s : exists w ws, split sep s = w :: ws.
Proof.
  destruct s as [|c s]; simpl; [by eexists _, _|].
  destruct (Ascii.eqb c sep); [by eexists _, _|].
  destruct (split sep s); by eexists _, _.
Qed.

Lemma split_no_sep sep s : has_char sep s = false -> split sep s = [s].
Proof.
  induction s as [|c s IH]; simpl; [reflexivity|].
  intros H. apply orb_false_iff in H as [-> H]. by rewrite (IH H).
Qed.

Lemma split_has_sep sep s :
  has_char sep s = true -> exists a b rest, split sep s = a :: b :: rest.
Proof.
  induction s as [|c s IH]; simpl; [discriminate|].
  destruct (Ascii.eqb c sep); simpl.
  - intros _. destruct (split_cons sep s) as (w & ws & ->). by eexists _, _, _.
  - intros H. destruct (IH H) as (a & b & rest & ->). by eexists _, _, _.
Qed.

Lemma py_index_nat {A} (l : list A) (i : nat) :
  i < length l -> py_index (Z.of_nat i) l = Some i.
Proof.
  intros Hi. unfold py_index.
  destruct (Z.of_nat i <? 0)%Z eqn:E1; [apply Z.ltb_lt in E1; lia|].
  destruct (0 <=? Z.of_nat i)%Z eqn:E2; [|apply Z.leb_gt in E2; lia].
  destruct (Z.of_nat i <? Z.of_nat (length l))%Z eqn:E3;
    [|apply Z.ltb_ge in E3; lia].
  simpl. by rewrite Nat2Z.id.
Qed.

Lemma py_index_past {A} (l : list A) (i : nat) :
  length l <= i -> py_index (Z.of_nat i) l = None.
Proof.
  intros Hi. unfold py_index.
  destruct (Z.of_nat i <? 0)%Z eqn:E1; [apply Z.ltb_lt in E1; lia|].
  destruct (Z.of_nat i <? Z.of_nat (length l))%Z eqn:E3;
    [apply Z.ltb_lt in E3; lia|].
  by rewrite andb_false_r.
Qed.

Lemma py_index_last {A} (l : list A) x :
  py_index (-1) (l ++ [x]) = Some (length l).
Proof.
  unfold py_index. rewrite length_app. simpl.
  replace (-1 + Z.of_nat (length l + 1))%Z with (Z.of_nat (length l)) by lia.
  destruct (0 <=? Z.of_nat (length l))%Z eqn:E2; [|apply Z.leb_gt in E2; lia].
  destruct (Z.of_nat (length l) <? Z.of_nat (length l + 1))%Z eqn:E3;
    [|apply Z.ltb_ge in E3; lia].
  simpl. by rewrite Nat2Z.id.
Qed.

Lemma py_getitem_0 {A} (x : A) l g : py_getitem 0 (x :: l) g = (inr x, g).
Proof.
  unfold py_getitem. change 0%Z with (Z.of_nat 0).
  rewrite py_index_nat; [reflexivity|simpl; lia].
Qed.

Lemma py_getitem_1 {A} (x y : A) l g :
  py_getitem 1 (x :: y :: l) g = (inr y, g).
Proof.
  unfold py_getitem. change 1%Z with (Z.of_nat 1).
  rewrite py_index_nat; [reflexivity|simpl; lia].
Qed.

Lemma py_getitem_1_short {A} (x : A) g :
  py_getitem 1 [x] g = (inl IndexError, g).
Proof. reflexivity. Qed.

Lemma py_del_0 {A} (x : A) l g : py_del 0 (x :: l) g = (inr l, g).
Proof.
  unfold py_del. change 0%Z with (Z.of_nat 0).
  rewrite py_index_nat; [reflexivity|simpl; lia].
Qed.

Lemma py_del_last {A} (l : list A) x g :
  py_del (-1) (l ++ [x]) g = (inr l, g).
Proof.
  unfold py_del. rewrite py_index_last.
  by rewrite delete_middle, app_nil_r.
Qed.

Lemma py_del_last_nil {A} g : py_del (-1) (@nil A) g = (inl IndexError, g).
Proof. reflexivity. Qed.

(** A file of at least two lines: the header is printed, and [lines] is
    left with the lines between the first and the last. *)
Lemma load_lines_run content header data final g :
  split LF content = header :: data ++ [final] ->
  load_lines content g = (inr tt, set_lines data (add_stdout header g)).
Proof.
  intros Hs. unfold load_lines, print. rewrite Hs.
  rewrite bind_run, update_run.
  rewrite bind_run, (load_name_run lines _ (header :: data ++ [final]))
    by reflexivity.
  rewrite bind_run, py_getitem_0, bind_run, update_run.
  rewrite bind_run, (load_name_run lines _ (header :: data ++ [final]))
    by reflexivity.
  rewrite bind_run, py_del_0, bind_run, update_run.
  rewrite bind_run, (load_name_run lines _ (data ++ [final])) by reflexivity.
  rewrite bind_run, py_del_last, update_run.
  reflexivity.
Qed.

(** A file of one line: deleting the last of no lines fails. *)
Lemma load_lines_run_short content header g :
  split LF content = [header] ->
  load_lines content g = (inl IndexError, set_lines [] (add_stdout header g)).
Proof.
  intros Hs. unfold load_lines, print. rewrite Hs.
  rewrite bind_run, update_run.
  rewrite bind_run, (load_name_run lines _ [header]) by reflexivity.
  rewrite bind_run, py_getitem_0, bind_run, update_run.
  rewrite bind_run, (load_name_run lines _ [header]) by reflexivity.
  rewrite bind_run, py_del_0, bind_run, update_run.
  rewrite bind_run, (load_name_run lines _ []) by reflexivity.
  rewrite bind_run, py_del_last_nil.
  reflexivity.
Qed.

Lemma set_molecules_same g acc :
  molecules g = Some acc -> set_molecules acc g = g.
Proof. destruct g; simpl; intros ->; reflexivity. Qed.

Lemma parse_line_run l acc g :
  molecules g = Some acc ->
  parse_line l tt g =
  match parse_fields l with
  | Some m => (inr tt, set_molecules (acc ++ [m]) g)
  | None => (inl IndexError, g)
  end.
Proof.
  intros Hacc. unfold parse_line, parse_fields.
  rewrite bind_run, (load_name_run molecules _ acc) by exact Hacc.
  destruct (split_cons TAB l) as (n & [|s rest] & ->).
  - by rewrite bind_run, py_getitem_0, bind_run, py_getitem_1_short.
  - by rewrite bind_run, py_getitem_0, bind_run, py_getitem_1.
Qed.

Lemma parse_loop_run ls acc g :
  molecules g = Some acc ->
  for_each parse_line ls tt g =
  (fst (parse_lines ls), set_molecules (acc ++ snd (parse_lines ls)) g).
Proof.
  revert acc g. induction ls as [|l ls IH]; intros acc g Hacc; simpl.
  - by rewrite app_nil_r, set_molecules_same.
  - rewrite bind_run, (parse_line_run _ _ _ Hacc).
    destruct (parse_fields l) as [m|]; simpl.
    + rewrite (IH (acc ++ [m])) by reflexivity.
      destruct (parse_lines ls) as [r ms]. simpl.
      by rewrite <- app_assoc.
    + by rewrite app_nil_r, set_molecules_same.
Qed.

Lemma parse_molecules_run ls g :
  lines g = Some ls ->
  parse_molecules g =
  (fst (parse_lines ls), set_molecules (snd (parse_lines ls)) g).
Proof.
  intros Hls. unfold parse_molecules.
  rewrite bind_run, update_run.
  rewrite bind_run, (load_name_run lines _ ls) by exact Hls.
  by rewrite (parse_loop_run ls []).
Qed.

Lemma parse_fields_tab l :
  has_char TAB l = true -> exists m, parse_fields l = Some m /\ parsed_from l m.
Proof.
  intros H. destruct (split_has_sep _ _ H) as (a & b & rest & E).
  exists {| name := a; smiles := b |}. unfold parse_fields, parsed_from.
  rewrite E. split; [reflexivity|]. by exists rest.
Qed.

Lemma parse_fields_no_tab l : has_char TAB l = false -> parse_fields l = None.
Proof. intros H. unfold parse_fields. by rewrite (split_no_sep _ _ H). Qed.

Lemma parse_lines_ok data :
  Forall (fun l => has_char TAB l = true) data ->
  exists ms, parse_lines data = (inr tt, ms) /\ Forall2 parsed_from data ms.
Proof.
  induction 1 as [|l data Hl _ (ms & IH & Hms)]; simpl.
  - exists []. split; [reflexivity|constructor].
  - destruct (parse_fields_tab l Hl) as (m & -> & Hm). rewrite IH.
    exists (m :: ms). split; [reflexivity|by constructor].
Qed.

Lemma parse_lines_bad data :
  Exists (fun l => has_char TAB l = false) data ->
  exists pre bad post ms,
    data = pre ++ bad :: post /\ has_char TAB bad = false /\
    parse_lines data = (inl IndexError, ms) /\ Forall2 parsed_from pre ms.
Proof.
  induction data as [|l data IH]; intros Hex; [by apply Exists_nil in Hex|].
  simpl. destruct (has_char TAB l) eqn:Hl.
  - apply Exists_cons in Hex as [Hbad|Hex]; [congruence|].
    destruct (IH Hex) as (pre & bad & post & ms & -> & Hbad & E & Hms).
    destruct (parse_fields_tab l Hl) as (m & -> & Hm). rewrite E.
    exists (l :: pre), bad, post, (m :: ms).
    repeat split; auto; by constructor.
  - rewrite (parse_fields_no_tab l Hl).
    exists [], l, data, []. repeat split; auto.
Qed.

(** C5, as amended.  For a file of at least two lines in which every line
    between the first and the last has a tab, loading succeeds: the first
    and the last line are deleted, and [molecules] holds one record for each
    remaining line, in order, with the line's field 0 as name and field 1
    as SMILES (further fields dropped), that is two records fewer than the
    file has lines. *)
Theorem load_gives_records content header data final g :
  split LF content = header :: data ++ [final] ->
  Forall (fun l => has_char TAB l = true) data ->
  exists ms,
    (load_lines content;; parse_molecules) g =
      (inr tt, set_molecules ms (set_lines data (add_stdout header g))) /\
    Forall2 parsed_from data ms /\
    length ms = length (split LF content) - 2.
Proof.
  intros Hs Htab. destruct (parse_lines_ok data Htab) as (ms & Hp & Hms).
  exists ms. rewrite bind_run, (load_lines_run _ _ _ _ _ Hs).
  rewrite (parse_molecules_run data) by reflexivity. rewrite Hp. simpl.
  repeat split; auto.
  apply Forall2_length in Hms. rewrite Hs. simpl. rewrite length_app. simpl. lia.
Qed.

(** C10.  When some line between the first and the last has no tab, the
    parsing loop raises [IndexError] at the first such line, on reading
    field 1; [molecules] then holds the records of the lines before it, each
    with both its fields, and nothing for the line itself. *)
Theorem load_fails_without_tab content header data final g :
  split LF content = header :: data ++ [final] ->
  Exists (fun l => has_char TAB l = false) data ->
  exists pre bad post ms,
    data = pre ++ bad :: post /\ has_char TAB bad = false /\
    py_getitem 1 (split TAB bad) g = (inl IndexError, g) /\
    (load_lines content;; parse_molecules) g =
      (inl IndexError, set_molecules ms (set_lines data (add_stdout header g))) /\
    Forall2 parsed_from pre ms.
Proof.
  intros Hs Hbad.
  destruct (parse_lines_bad data Hbad) as (pre & bad & post & ms & E & Hb & Hp & Hms).
  exists pre, bad, post, ms. repeat split; auto.
  - by rewrite (split_no_sep _ _ Hb).
  - rewrite bind_run, (load_lines_run _ _ _ _ _ Hs).
    rewrite (parse_molecules_run data) by reflexivity. by rewrite Hp.
Qed.

End ImportFacts.

(** ** The whole notebook *)

Section NotebookFacts.

Context {L : Rdkit}.

Lemma input_query_run console_line g :
  input_query console_line g =
  (inr tt, set_query_smiles console_line
             (add_stdout "Input a valid SMILES string:" g)).
Proof. reflexivity. Qed.

Lemma search_run q ms g :
  query_smiles g = Some q ->
  molecules g = Some ms ->
  search g =
  match search_outcome q ms with
  | inl e => (inl e, add_calls (search_calls q ms) g)
  | inr b => (inr tt, set_best_mol b (add_calls (search_calls q ms) g))
  end.
Proof.
  intros Hq Hms. unfold search.
  rewrite bind_run, (load_name_run query_smiles _ q) by exact Hq.
  rewrite bind_run, (most_similar_run _ _ _ Hms).
  by destruct (search_outcome q ms).
Qed.

Lemma report_run b g :
  best_mol g = Some b ->
  report g =
  (inr tt, add_stdout (smiles b)
             (add_stdout (name b) (add_stdout "The best match was:" g))).
Proof.
  intros Hb. unfold report, print.
  rewrite bind_run, update_run.
  rewrite bind_run, (load_name_run best_mol _ b) by exact Hb.
  rewrite bind_run, update_run.
  rewrite bind_run, (load_name_run best_mol _ b) by exact Hb.
  by rewrite update_run.
Qed.

Lemma extern_run {A} c (r : LibError + A) g :
  extern c r g =
  (match r with inl e => inl (LibraryError e) | inr a => inr a end,
   add_call c g).
Proof. unfold extern. by destruct r. Qed.

Lemma visualise_run q b g :
  query_smiles g = Some q ->
  best_mol g = Some b ->
  exists g',
    visualise g = (visualise_outcome q b, g') /\
    stdout g' = stdout g /\
    molecules g' = molecules g /\
    best_mol g' = best_mol g.
Proof.
  intros Hq Hb. unfold visualise, visualise_outcome.
  rewrite bind_run, (load_name_run query_smiles _ q) by exact Hq.
  rewrite bind_run, extern_run.
  destruct (MolFromSmiles q) as [e|qm]; [by eexists|].
  rewrite bind_run, update_run.
  rewrite bind_run, (load_name_run best_mol _ b) by exact Hb.
  rewrite bind_run, extern_run.
  destruct (MolFromSmiles (smiles b)) as [e|mm]; [by eexists|].
  rewrite bind_run, update_run.
  rewrite bind_run, (load_name_run query_m _ qm) by reflexivity.
  rewrite bind_run, (load_name_run match_m _ mm) by reflexivity.
  rewrite bind_run, extern_run.
  destruct (MolsToGridImage qm mm) as [e|img]; by eexists.
Qed.

(** What the run of the whole notebook returns, prints, loads and finds
    does not depend on the state of the globals it starts from. *)
Lemma notebook_uniform content console_line :
  uniform (notebook content console_line).
Proof.
  unfold uniform, notebook.
  destruct (split_cons LF content) as (header & rest & Hs).
  destruct rest as [|final data _] using rev_ind.
  { exists (inl IndexError), [header], None, None. intros g.
    by rewrite bind_run, (load_lines_run_short _ _ _ Hs). }
  destruct (parse_lines data) as [[e|[]] recs] eqn:Hp.
  { exists (inl e), [header], (Some recs), None. intros g.
    rewrite bind_run, (load_lines_run _ _ _ _ _ Hs).
    rewrite bind_run, (parse_molecules_run data) by reflexivity.
    by rewrite Hp. }
  destruct (search_outcome console_line recs) as [e|b] eqn:Hsearch.
  { exists (inl e), [header; "Input a valid SMILES string:"], (Some recs), None.
    intros g.
    rewrite bind_run, (load_lines_run _ _ _ _ _ Hs).
    rewrite bind_run, (parse_molecules_run data) by reflexivity.
    rewrite Hp. simpl fst. simpl snd.
    rewrite bind_run, input_query_run.
    rewrite bind_run, (search_run console_line recs) by reflexivity.
    rewrite Hsearch. simpl. by rewrite <- app_assoc. }
  exists (visualise_outcome console_line b),
    [header; "Input a valid SMILES string:"; "The best match was:";
     name b; smiles b], (Some recs), (Some b).
  intros g.
  rewrite bind_run, (load_lines_run _ _ _ _ _ Hs).
  rewrite bind_run, (parse_molecules_run data) by reflexivity.
  rewrite Hp. simpl fst. simpl snd.
  rewrite bind_run, input_query_run.
  rewrite bind_run, (search_run console_line recs) by reflexivity.
  rewrite Hsearch.
  rewrite bind_run, (report_run b) by reflexivity.
  match goal with
  | |- context [visualise ?g'] =>
      destruct (visualise_run console_line b g' eq_refl eq_refl)
        as (g'' & -> & Eout & Emol & Ebest)
  end.
  simpl. rewrite Eout, Emol, Ebest. simpl. by rewrite <- !app_assoc.
Qed.

(** C9.  Two runs of the notebook on the same file text and the same
    console line, with the same toolkit, from any two states of the
    globals: they end the same way (both return, or both raise the same
    exception), print the same lines (the reported name and SMILES among
    them), and leave the same record list in [molecules] and the same
    record in [best_mol], unless neither run got to assign the variable. *)
Theorem notebook_deterministic content console_line g1 g2 :
  let run1 := notebook content console_line g1 in
  let run2 := notebook content console_line g2 in
  fst run1 = fst run2 /\
  (exists out,
     stdout (snd run1) = stdout g1 ++ out /\
     stdout (snd run2) = stdout g2 ++ out) /\
  (molecules (snd run1) = molecules (snd run2) \/
   molecules (snd run1) = molecules g1 /\ molecules (snd run2) = molecules g2) /\
  (best_mol (snd run1) = best_mol (snd run2) \/
   best_mol (snd run1) = best_mol g1 /\ best_mol (snd run2) = best_mol g2).
Proof.
  intros run1 run2. subst run1 run2.
  destruct (notebook_uniform content console_line) as (r & out & mol & bm & H).
  destruct (H g1) as (Hr1 & Ho1 & Hm1 & Hb1).
  destruct (H g2) as (Hr2 & Ho2 & Hm2 & Hb2).
  split; [congruence|]. split; [by exists out|]. split.
  - destruct mol; [left; congruence|right; auto].
  - destruct bm; [left; congruence|right; auto].
Qed.

End NotebookFacts.

(** ** More on the text operations *)

Lemma join_cons sep w w' ws :
  join sep (w :: w' :: ws) = w +:+ String sep (join sep (w' :: ws)).
Proof. reflexivity. Qed.

(** X1.  Splitting loses no text: the pieces of [s.split(sep)], joined
    again with [sep], are [s]. *)
Theorem join_split sep s : join sep (split sep s) = s.
Proof.
  induction s as [|c s IH]; simpl; [reflexivity|].
  destruct (split_cons sep s) as (w & ws & E). rewrite E in *.
  destruct (Ascii.eqb c sep) eqn:Hc.
  - apply Ascii.eqb_eq in Hc as ->. by rewrite join_cons, IH.
  - destruct ws as [|w' ws].
    + simpl in *. by rewrite IH.
    + rewrite join_cons in *. by rewrite <- IH.
Qed.

Lemma split_append_sep sep t u :
  split sep (t +:+ String sep u) = split sep t ++ split sep u.
Proof.
  induction t as [|c t IH]; simpl.
  - by rewrite Ascii.eqb_refl.
  - rewrite IH. destruct (Ascii.eqb c sep); [reflexivity|].
    by destruct (split_cons sep t) as (w & ws & ->).
Qed.

(** The other way round: words that hold no separator, joined with the
    separator, split back into the same words (there being at least one
    word). *)
Lemma split_join sep ws :
  ws <> [] ->
  Forall (fun w => has_char sep w = false) ws ->
  split sep (join sep ws) = ws.
Proof.
  intros Hne Hall. induction Hall as [|w ws Hw Hall IH]; [done|].
  destruct ws as [|w' ws].
  - simpl. by apply split_no_sep.
  - rewrite join_cons, split_append_sep, (split_no_sep _ _ Hw), IH by done.
    reflexivity.
Qed.

(** No piece of [s.split(sep)] holds the separator. *)
Lemma split_pieces_sep_free sep s :
  Forall (fun w => has_char sep w = false) (split sep s).
Proof.
  induction s as [|c s IH]; simpl.
  - by repeat constructor.
  - destruct (Ascii.eqb c sep) eqn:Hc.
    + by constructor.
    + destruct (split sep s) as [|w ws].
      * repeat constructor. simpl. by rewrite Hc.
      * apply Forall_cons in IH as [Hw Hws].
        constructor; [|exact Hws]. simpl. by rewrite Hc, Hw.
Qed.

Lemma has_char_append c a b :
  has_char c (a +:+ b) = has_char c a || has_char c b.
Proof.
  induction a as [|x a IH]; simpl; [reflexivity|].
  by rewrite IH, orb_assoc.
Qed.

Lemma split_pieces_chars sep c s :
  has_char c s = false ->
  Forall (fun w => has_char c w = false) (split sep s).
Proof.
  induction s as [|a s IH]; simpl; intros H.
  - by repeat constructor.
  - apply orb_false_iff in H as [Ha H]. specialize (IH H).
    destruct (Ascii.eqb a sep).
    + by constructor.
    + destruct (split sep s) as [|w ws].
      * repeat constructor. simpl. by rewrite Ha.
      * apply Forall_cons in IH as [Hw Hws].
        constructor; [|exact Hws]. simpl. by rewrite Ha, Hw.
Qed.

(** ** More on the cells *)

Section MoreFacts.

Context {L : Rdkit}.

Lemma split_lines_cases content :
  (split LF content = [content] /\ has_char LF content = false) \/
  (exists header data final,
     split LF content = header :: data ++ [final] /\
     has_char LF content = true).
Proof.
  destruct (has_char LF content) eqn:H.
  - right. destruct (split_has_sep _ _ H) as (a & b & rest & E).
    destruct (exists_last (l := b :: rest)) as (data & final & E');
      [discriminate|].
    rewrite E' in E. by exists a, data, final.
  - left. by rewrite (split_no_sep _ _ H).
Qed.

(** X3.  The import cell needs a newline in the file and nothing else: with
    one it returns; without one, the whole text is printed as the header,
    [lines] is left empty and deleting its last element raises
    [IndexError]. *)
Theorem load_lines_needs_newline content g :
  if has_char LF content
  then fst (load_lines content g) = inr tt
  else load_lines content g =
       (inl IndexError, set_lines [] (add_stdout content g)).
Proof.
  destruct (split_lines_cases content)
    as [(E & ->)|(header & data & final & E & ->)].
  - by apply load_lines_run_short.
  - by rewrite (load_lines_run _ _ _ _ _ E).
Qed.

(** X4.  What stands after the last newline of the file is dropped,
    whether it is empty or not: on the text [t], a newline and [last], the
    cell keeps the lines of [t] but the first, whatever [last] is.  A file
    that does not end in a newline loses its last line. *)
Theorem load_lines_drops_last t last g :
  has_char LF last = false ->
  exists header data,
    split LF t = header :: data /\
    load_lines (t +:+ String LF last) g =
    (inr tt, set_lines data (add_stdout header g)).
Proof.
  intros H. destruct (split_cons LF t) as (header & data & E).
  exists header, data. split; [exact E|].
  apply load_lines_run with (final := last).
  by rewrite split_append_sep, E, (split_no_sep _ _ H).
Qed.

Lemma load_parse_run content header data final g :
  split LF content = header :: data ++ [final] ->
  (load_lines content;; parse_molecules) g =
  (fst (parse_lines data),
   set_molecules (snd (parse_lines data))
     (set_lines data (add_stdout header g))).
Proof.
  intros E. rewrite bind_run, (load_lines_run _ _ _ _ _ E).
  by rewrite (parse_molecules_run data).
Qed.


Lemma parse_lines_plain ls :
  Forall (fun l => has_char LF l = false) ls ->
  Forall plain_fields (snd (parse_lines ls)).
Proof.
  induction 1 as [|l ls Hl _ IH]; simpl; [constructor|].
  destruct (parse_fields l) as [m|] eqn:Hf; [|constructor].
  destruct (parse_lines ls) as [r ms]. simpl in *.
  constructor; [|exact IH].
  unfold parse_fields in Hf.
  pose proof (split_pieces_sep_free TAB l) as Ht.
  pose proof (split_pieces_chars TAB LF l Hl) as Hn.
  destruct (split TAB l) as [|n [|s rest]]; try discriminate.
  injection Hf as <-.
  apply Forall_cons in Ht as [Ht1 Ht]. apply Forall_cons in Ht as [Ht2 _].
  apply Forall_cons in Hn as [Hn1 Hn]. apply Forall_cons in Hn as [Hn2 _].
  by repeat split.
Qed.

Lemma parse_lines_of_records recs :
  Forall plain_fields recs ->
  parse_lines (map line_of recs) = (inr tt, recs).
Proof.
  induction 1 as [|m recs (Ht1 & Ht2 & _) _ IH]; simpl; [reflexivity|].
  unfold parse_fields, line_of at 1.
  rewrite split_append_sep, (split_no_sep _ _ Ht1), (split_no_sep _ _ Ht2).
  simpl. rewrite IH. by destruct m.
Qed.

(** X2.  Round trip through the file: for records with plain fields and a
    header without newline, the import cells read the text [file_text] back
    into exactly those records, in order, whatever [molecules] held before;
    the header is printed. *)
Theorem load_round_trip header recs g :
  has_char LF header = false ->
  Forall plain_fields recs ->
  (load_lines (file_text header recs);; parse_molecules) g =
  (inr tt,
   set_molecules recs (set_lines (map line_of recs) (add_stdout header g))).
Proof.
  intros Hh Hrecs.
  rewrite (load_parse_run _ header (map line_of recs) EmptyString).
  - by rewrite (parse_lines_of_records _ Hrecs).
  - unfold file_text. apply split_join; [discriminate|].
    constructor; [exact Hh|]. apply Forall_app. split; [|by repeat constructor].
    apply Forall_map. eapply Forall_impl; [exact Hrecs|].
    intros m (_ & _ & Hn1 & Hn2). unfold line_of.
    rewrite has_char_append. simpl. by rewrite Hn1, Hn2.
Qed.

(** X5.  Once the import cell has returned, the records that the parsing
    loop leaves in [molecules] (all of them, or those before the line at
    which it fails) have a name and a SMILES free of tabs and newlines. *)
Theorem loaded_fields_plain content g :
  fst (load_lines content g) = inr tt ->
  exists ms,
    molecules (snd ((load_lines content;; parse_molecules) g)) = Some ms /\
    Forall plain_fields ms.
Proof.
  destruct (split_lines_cases content)
    as [(E & _)|(header & data & final & E & _)].
  - by rewrite (load_lines_run_short _ _ _ E).
  - intros _. rewrite (load_parse_run _ _ _ _ _ E). simpl.
    exists (snd (parse_lines data)). split; [reflexivity|].
    apply parse_lines_plain.
    pose proof (split_pieces_sep_free LF content) as H. rewrite E in H.
    apply Forall_cons in H as [_ H]. by apply Forall_app in H as [H _].
Qed.

(** X6.  Running the parsing cell again changes nothing: it starts from an
    empty list each time, so the records are not appended twice. *)
Theorem parse_molecules_idempotent g :
  (parse_molecules;; parse_molecules) g = parse_molecules g.
Proof.
  rewrite bind_run. destruct (lines g) as [ls|] eqn:Hls.
  - rewrite (parse_molecules_run ls g Hls).
    destruct (parse_lines ls) as [[e|[]] recs] eqn:Hp; simpl; [reflexivity|].
    rewrite (parse_molecules_run ls) by exact Hls. by rewrite Hp.
  - unfold parse_molecules. rewrite bind_run, update_run, bind_run.
    unfold load_name. simpl. by rewrite Hls.
Qed.

(** X7.  A record that scores 0 or less, or 1 or more, has no part in the
    search: with it or without it, wherever it stands in the list,
    [most_similar] ends the same way.  So the query molecule itself can be in
    the database or not. *)
Theorem most_similar_ignores_out_of_range query g pre x post query_fp s :
  fingerprint_value query = inr query_fp ->
  score query_fp x = inr s ->
  (s <= 0 \/ 1 <= s)%Q ->
  fst (most_similar query (set_molecules (pre ++ x :: post) g)) =
  fst (most_similar query (set_molecules (pre ++ post) g)).
Proof.
  intros Hq Hs Hrange.
  rewrite (most_similar_run query (pre ++ x :: post)) by reflexivity.
  rewrite (most_similar_run query (pre ++ post)) by reflexivity.
  simpl. unfold search_outcome. rewrite Hq, !select_app.
  destruct (select query_fp pre _) as [e|v1] eqn:Hpre; [reflexivity|].
  simpl. rewrite Hs.
  destruct (select_inv _ _ _ _ Hpre) as (_ & Hmono & _). simpl in Hmono.
  destruct (assign_cases v1 x s) as [(_ & H1 & H2)|(-> & _)]; [|reflexivity].
  exfalso. destruct Hrange; lra.
Qed.


(** X9.  The ways [most_similar] can end: with a record of [molecules];
    with [UnboundLocalError], [molecules] being bound; with [NameError],
    only when [molecules] is unbound; or with a failure of the toolkit.  It
    never raises [IndexError]. *)
Theorem most_similar_outcomes query g :
  match fst (most_similar query g) with
  | inr r => exists ms, molecules g = Some ms /\ r ∈ ms
  | inl UnboundLocalError => exists ms, molecules g = Some ms
  | inl NameError => molecules g = None
  | inl IndexError => False
  | inl (LibraryError _) => True
  end.
Proof.
  destruct (molecules g) as [ms|] eqn:Hms.
  - rewrite (most_similar_run _ _ _ Hms). simpl.
    destruct (search_outcome query ms) as [ex|r] eqn:Ho.
    + unfold search_outcome in Ho.
      destruct (fingerprint_value query) as [e|query_fp];
        [by injection Ho as <-|].
      destruct (select _ _ _) as [ex'|v] eqn:Hsel.
      * injection Ho as <-.
        by apply select_fails in Hsel as (e & _ & _ & _ & -> & _).
      * destruct (local_best_mol v); [discriminate|].
        injection Ho as <-. by exists ms.
    + apply search_outcome_returns in Ho
        as (query_fp & pre & post & sr & _ & -> & _).
      eexists. split; [reflexivity|].
      apply elem_of_app. right. apply elem_of_cons. by left.
  - rewrite (most_similar_run_unbound _ _ Hms). simpl.
    by destruct (fingerprint_value query).
Qed.

(** X12.  The search cell assigns [best_mol] only when [most_similar]
    returns, and then a record of [molecules]; when anything raises,
    [best_mol] is left as it was, so a match found for an earlier query
    stays there. *)
Theorem search_assigns_on_return g :
  match fst (search g) with
  | inr _ =>
      exists ms b,
        molecules g = Some ms /\ best_mol (snd (search g)) = Some b /\ b ∈ ms
  | inl _ => best_mol (snd (search g)) = best_mol g
  end.
Proof.
  destruct (query_smiles g) as [q|] eqn:Hq.
  - destruct (molecules g) as [ms|] eqn:Hms.
    + rewrite (search_run q ms g Hq Hms).
      destruct (search_outcome q ms) as [e|b] eqn:Ho; simpl; [reflexivity|].
      exists ms, b. split; [reflexivity|]. split; [reflexivity|].
      apply search_outcome_returns in Ho
        as (query_fp & pre & post & sr & _ & -> & _).
      apply elem_of_app. right. apply elem_of_cons. by left.
    + unfold search.
      rewrite bind_run, (load_name_run query_smiles _ q) by exact Hq.
      rewrite bind_run, (most_similar_run_unbound _ _ Hms).
      by destruct (fingerprint_value q).
  - unfold search. rewrite bind_run. unfold load_name. by rewrite Hq.
Qed.

Lemma length_record_calls (ms : list mol_entry) :
  length (flat_map (fun r => [CallMolFromSmiles (smiles r); CallRDKFingerprint;
                              CallFingerprintSimilarity]) ms)
  = 3 * length ms.
Proof. induction ms as [|r ms IH]; simpl; [reflexivity|]. rewrite IH. lia. Qed.

(** X10.  A search over [n] records makes at most [2 + 3 * n] calls into
    the toolkit, whether it returns or raises. *)
Theorem most_similar_call_bound query g :
  length (calls (snd (most_similar query g))) <=
  length (calls g) + 2 + 3 * length (default [] (molecules g)).
Proof.
  destruct (molecules g) as [ms|] eqn:Hms; simpl.
  - rewrite (most_similar_run _ _ _ Hms). simpl. rewrite length_app.
    unfold search_calls, fingerprint_calls.
    destruct (fingerprint_value query) as [e|query_fp].
    + destruct (MolFromSmiles query); simpl; lia.
    + destruct (scan_calls_prefix query_fp ms) as (rest & E & _).
      apply (f_equal length) in E.
      rewrite length_record_calls, length_app in E.
      destruct (MolFromSmiles query); rewrite length_app; simpl; lia.
  - rewrite (most_similar_run_unbound _ _ Hms). simpl. rewrite length_app.
    unfold fingerprint_calls. destruct (MolFromSmiles query); simpl; lia.
Qed.


End MoreFacts.

(** ** Runs on the small toolkit *)

Section ToyRuns.

Import Toy.

Example split_trailing_newline :
  split LF (join LF ["a"; "b"; EmptyString]) = ["a"; "b"; EmptyString].
Proof. reflexivity. Qed.

Example split_empty : split TAB EmptyString = [EmptyString].
Proof. reflexivity. Qed.

Example split_adjacent_tabs :
  split TAB (join TAB ["a"; EmptyString; "b"]) = ["a"; EmptyString; "b"].
Proof. reflexivity. Qed.

Example del_last_of_none :
  py_del (-1) (@nil string) empty_globals = (inl IndexError, empty_globals).
Proof. reflexivity. Qed.

Example search_skips_exact_match :
  fst (most_similar "CC"
         (with_molecules [methane; ethane; butane; propane; water]))
  = inr propane.
Proof. reflexivity. Qed.

Example sample_file_lines :
  split LF sample_file =
  [header_line; join TAB ["methane"; "C"; "CH4"]; join TAB ["ethane"; "CC"];
   join TAB ["propane"; "CCC"]; EmptyString].
Proof. reflexivity. Qed.

Example sample_run :
  let run := notebook sample_file "CC" empty_globals in
  fst run = inr tt /\
  molecules (snd run) = Some [methane; ethane; propane] /\
  best_mol (snd run) = Some propane /\
  stdout (snd run) =
    [header_line; "Input a valid SMILES string:"; "The best match was:";
     "propane"; "CCC"].
Proof. vm_compute. auto. Qed.

(** The counterexample to C1 as stated: against the query [CC], methane
    scores 1/2 and ethane scores 1; the search returns methane. *)
Lemma most_similar_not_maximum :
  ~ returns_maximum "CC" (with_molecules [methane; ethane]).
Proof.
  intros (ms & r & query_fp & sr & Hms & Hr & Hq & Hsr & Hall).
  vm_compute in Hms. injection Hms as <-.
  vm_compute in Hr. injection Hr as <-.
  vm_compute in Hq. injection Hq as <-.
  vm_compute in Hsr. injection Hsr as <-.
  apply Forall_cons in Hall as [_ Hall].
  apply Forall_cons in Hall as [(s & Hs & Hle) _].
  vm_compute in Hs. injection Hs as <-.
  vm_compute in Hle. by apply Hle.
Qed.

Lemma most_similar_best_below_one_witness :
  exists r sr,
    fst (most_similar "CC" (with_molecules [methane; ethane; propane; water]))
      = inr r /\
    r ∈ [methane; ethane; propane; water] /\
    score 2 r = inr sr /\ (sr < 1)%Q /\
    Forall (scored 2 (fun s => s < 1 -> s <= sr)%Q)
      [methane; ethane; propane; water].
Proof.
  apply (most_similar_best_below_one "CC"
           (with_molecules [methane; ethane; propane; water])
           [methane; ethane; propane; water] 2).
  - reflexivity.
  - reflexivity.
  - repeat constructor; eexists; (split; [reflexivity|exact I]).
  - apply Exists_cons_hd. exists (1 # 2)%Q. split; [reflexivity|].
    split; reflexivity.
Defined.

Lemma most_similar_first_best_witness :
  fst (most_similar "CC" (with_molecules [water; methane; ethane; butane]))
    = inr methane.
Proof.
  apply (most_similar_first_best "CC"
           (with_molecules [water; methane; ethane; butane])
           [water; methane; ethane; butane] methane); [reflexivity|].
  exists 2, [water], [ethane; butane], (1 # 2)%Q.
  split; [reflexivity|]. split; [reflexivity|]. split; [reflexivity|].
  split; [reflexivity|]. split; [reflexivity|]. split; [discriminate|].
  split.
  - repeat constructor. eexists. split; [reflexivity|]. intros _. reflexivity.
  - repeat constructor.
    + eexists. split; [reflexivity|]. intros H. discriminate H.
    + eexists. split; [reflexivity|]. intros _ H. discriminate H.
Defined.

Lemma most_similar_unbound_local_witness :
  fst (most_similar "CC" (with_molecules [ethane; water]))
    = inl UnboundLocalError /\
  fst (most_similar "CC" (with_molecules [])) = inl UnboundLocalError.
Proof.
  split.
  - apply (most_similar_unbound_local "CC" (with_molecules [ethane; water])
             [ethane; water] 2); [reflexivity|reflexivity|].
    repeat constructor.
    + eexists. split; [reflexivity|]. right. reflexivity.
    + eexists. split; [reflexivity|]. left. reflexivity.
  - apply (most_similar_unbound_local "CC" (with_molecules []) [] 2);
      [reflexivity|reflexivity|constructor].
Defined.

(** The counterexample to C4 as stated: the toolkit fails nowhere in this
    run, and the run ends in [UnboundLocalError]. *)
Lemma notebook_own_failure :
  ~ only_library_failures (notebook ethane_file "CC" empty_globals).
Proof.
  intros H. destruct (H UnboundLocalError) as (e & He); [reflexivity|].
  discriminate He.
Qed.

Lemma most_similar_library_failure_witness :
  fst (most_similar "CC" (with_molecules [methane; blank; propane]))
    = inl (LibraryError BadMolecule).
Proof.
  apply (most_similar_library_failure "CC"
           (with_molecules [methane; blank; propane])
           [methane; blank; propane] BadMolecule); [reflexivity|].
  right. exists 2, [methane], blank, [propane].
  split; [reflexivity|]. split; [reflexivity|]. split; [|reflexivity].
  repeat constructor. eexists. split; [reflexivity|exact I].
Defined.

(** The counterexamples to C5 as stated: a file of one line, and a file
    with a data line that has no tab. *)
Lemma load_not_total :
  ~ loads_records "Name" empty_globals /\
  ~ loads_records broken_file empty_globals.
Proof.
  split; intros (ms & Hr & _); vm_compute in Hr; discriminate Hr.
Qed.

Lemma load_gives_records_witness :
  exists ms,
    (load_lines sample_file;; parse_molecules) empty_globals =
      (inr tt,
       set_molecules ms
         (set_lines [join TAB ["methane"; "C"; "CH4"];
                     join TAB ["ethane"; "CC"]; join TAB ["propane"; "CCC"]]
            (add_stdout header_line empty_globals))) /\
    Forall2 parsed_from
      [join TAB ["methane"; "C"; "CH4"]; join TAB ["ethane"; "CC"];
       join TAB ["propane"; "CCC"]] ms /\
    length ms = length (split LF sample_file) - 2.
Proof.
  apply (load_gives_records sample_file header_line
           [join TAB ["methane"; "C"; "CH4"]; join TAB ["ethane"; "CC"];
            join TAB ["propane"; "CCC"]] EmptyString empty_globals).
  - reflexivity.
  - repeat constructor.
Defined.

Lemma load_fails_without_tab_witness :
  exists pre bad post ms,
    [join TAB ["methane"; "C"]; "butane"; join TAB ["propane"; "CCC"]]
      = pre ++ bad :: post /\
    has_char TAB bad = false /\
    py_getitem 1 (split TAB bad) empty_globals = (inl IndexError, empty_globals) /\
    (load_lines broken_file;; parse_molecules) empty_globals =
      (inl IndexError,
       set_molecules ms
         (set_lines [join TAB ["methane"; "C"]; "butane";
                     join TAB ["propane"; "CCC"]]
            (add_stdout header_line empty_globals))) /\
    Forall2 parsed_from pre ms.
Proof.
  apply (load_fails_without_tab broken_file header_line
           [join TAB ["methane"; "C"]; "butane"; join TAB ["propane"; "CCC"]]
           EmptyString empty_globals).
  - reflexivity.
  - apply Exists_cons_tl, Exists_cons_hd. reflexivity.
Defined.

Lemma most_similar_is_linear_scan_witness :
  calls (snd (most_similar "CC" (with_molecules [methane; propane]))) =
  [CallMolFromSmiles "CC"; CallRDKFingerprint;
   CallMolFromSmiles "C"; CallRDKFingerprint; CallFingerprintSimilarity;
   CallMolFromSmiles "CCC"; CallRDKFingerprint; CallFingerprintSimilarity].
Proof.
  destruct (proj2 (most_similar_is_linear_scan "CC"
                     (with_molecules [methane; propane]))
              [methane; propane] eq_refl)
    as (made & rest & Hcalls & Hscan & Hrest).
  rewrite Hrest in Hscan.
  - rewrite app_nil_r in Hscan. rewrite Hcalls, <- Hscan. reflexivity.
  - intros e H. discriminate H.
Defined.

Lemma most_similar_terminates_witness :
  most_similar_steps 4 "CC" (with_molecules [methane; ethane; propane]) =
  ended (most_similar "CC" (with_molecules [methane; ethane; propane])).
Proof.
  apply (most_similar_terminates "CC"
           (with_molecules [methane; ethane; propane]) 4).
  simpl. lia.
Defined.

End ToyRuns.

(** ** More runs on the small toolkit *)

Section MoreToyRuns.

Import Toy.

Lemma load_round_trip_witness :
  (load_lines (file_text header_line [methane; ethane; water]);;
   parse_molecules) empty_globals =
  (inr tt,
   set_molecules [methane; ethane; water]
     (set_lines (map line_of [methane; ethane; water])
        (add_stdout header_line empty_globals))).
Proof.
  apply (load_round_trip header_line [methane; ethane; water] empty_globals).
  - reflexivity.
  - repeat constructor.
Defined.

(** A file of a header and two data lines that does not end in a newline:
    the second data line, that of propane, is lost. *)
Lemma load_lines_drops_last_witness :
  exists header data,
    split LF (join LF [header_line; join TAB ["methane"; "C"]]) =
      header :: data /\
    load_lines (join LF [header_line; join TAB ["methane"; "C"]]
                +:+ String LF (join TAB ["propane"; "CCC"])) empty_globals =
    (inr tt, set_lines data (add_stdout header empty_globals)).
Proof.
  apply (load_lines_drops_last
           (join LF [header_line; join TAB ["methane"; "C"]])
           (join TAB ["propane"; "CCC"]) empty_globals).
  reflexivity.
Defined.

Lemma loaded_fields_plain_witness :
  exists ms,
    molecules (snd ((load_lines broken_file;; parse_molecules) empty_globals))
      = Some ms /\
    Forall plain_fields ms.
Proof.
  apply (loaded_fields_plain broken_file empty_globals). reflexivity.
Defined.

Lemma most_similar_ignores_out_of_range_witness :
  fst (most_similar "CC"
         (set_molecules ([methane] ++ ethane :: [propane]) empty_globals)) =
  fst (most_similar "CC"
         (set_molecules ([methane] ++ [propane]) empty_globals)).
Proof.
  refine (most_similar_ignores_out_of_range "CC" empty_globals
            [methane] ethane [propane] 2 (2 # 2)%Q eq_refl eq_refl
            (or_intror _)).
  unfold Qle. simpl. lia.
Defined.


End MoreToyRuns.
